(** * WorkerOutgoingTransfersModule

    A shallow embedding of [static/js/modules/worker_outgoing_transfers.js]
    and the properties of its four methods: the constructor,
    [legendOnToggle], [initLegend] and [plot].

    The class extends [BaseModule] (base.js) and imports [escapeWorkerId]
    and [getWorkerColor] (utils.js).  Those two files are not part of the
    sources at hand: the two helpers and the state left by the super
    constructor are Section variables, as are the comparator of the
    runtime and the selector engine behind d3; the methods of the base class
    are modelled by the calls they receive plus the little of their effect
    that the class itself reads back (the scale types and the paths of the
    drawing surface). *)

From Stdlib Require Import List String Ascii ZArith Lia Bool Arith.
From Stdlib Require Import Permutation Sorted.
Import ListNotations.

Local Open Scope list_scope.

(* ===================================================================== *)
(** * The JavaScript fragment the class relies on *)
(* ===================================================================== *)

Module JS.

(** The exceptions the class can run into: a [TypeError] from reading a
    property of [undefined] or handing [undefined] to [Object.keys] /
    [Object.entries], and the [SyntaxError] of a selector that does not
    parse. *)
Inductive error : Type := TypeError | SyntaxError.

Inductive completion (A : Type) : Type :=
| Normal (a : A)
| Throw (e : error).
Arguments Normal {A} a.
Arguments Throw {A} e.

(** An ordinary object used as a mapping: its own enumerable
    string-keyed properties, in property enumeration order.  A value of
    type [option X] is an [X] or [undefined]. *)
Definition object (V : Type) : Type := list (string * V).

(** Property names of an object are pairwise different. *)
Definition wf_object {V : Type} (o : object V) : Prop := NoDup (map fst o).

(** [Object.keys(o)] and [Object.entries(o)]: both walk the same
    property order; both throw on [undefined]. *)
Definition Object_keys {V : Type} (o : option (object V))
  : completion (list string) :=
  match o with
  | None => Throw TypeError
  | Some props => Normal (map fst props)
  end.

Definition Object_entries {V : Type} (o : option (object V))
  : completion (list (string * V)) :=
  match o with
  | None => Throw TypeError
  | Some props => Normal props
  end.

(** [arr.map((x, idx) => f(x, idx))]. *)
Fixpoint map_from {A B : Type} (f : A -> nat -> B) (idx : nat) (arr : list A)
  : list B :=
  match arr with
  | [] => []
  | x :: rest => f x idx :: map_from f (S idx) rest
  end.

Definition Array_map {A B : Type} (f : A -> nat -> B) (arr : list A) : list B :=
  map_from f 0 arr.

(** [arr.sort(cmp)]: [a] goes before [b] when [cmp(a, b) < 0], after it
    when [cmp(a, b) > 0], and elements that compare equal keep their
    order (the sort is stable).  For a consistent comparator that fixes
    the result; it is computed here by stable insertion. *)
Fixpoint insert {A : Type} (cmp : A -> A -> Z) (x : A) (sorted : list A)
  : list A :=
  match sorted with
  | [] => [x]
  | y :: rest =>
      if (0 <? cmp x y)%Z then y :: insert cmp x rest else x :: y :: rest
  end.

Fixpoint Array_sort {A : Type} (cmp : A -> A -> Z) (arr : list A) : list A :=
  match arr with
  | [] => []
  | x :: rest => insert cmp x (Array_sort cmp rest)
  end.

(** [a] is not after [b] in the order of the comparator. *)
Definition not_after {A : Type} (cmp : A -> A -> Z) (a b : A) : Prop :=
(cmp a b <= 0)%Z.

(** Methods run on the state of the instance; an exception leaves the
    mutations made before it in place. *)
Definition M (St A : Type) : Type := St -> completion A * St.

Definition ret {St A : Type} (a : A) : M St A := fun st => (Normal a, st).

Definition throw {St A : Type} (e : error) : M St A := fun st => (Throw e, st).

Definition bind {St A B : Type} (m : M St A) (k : A -> M St B) : M St B :=
  fun st =>
    match m st with
    | (Normal a, st') => k a st'
    | (Throw e, st') => (Throw e, st')
    end.

Definition lift {St A : Type} (c : completion A) : M St A := fun st => (c, st).

Definition gets {St A : Type} (f : St -> A) : M St A := fun st => (Normal (f st), st).

Definition modify {St : Type} (f : St -> St) : M St unit :=
  fun st => (Normal tt, f st).

(** [arr.forEach((x, idx) => body(x, idx))]. *)
Fixpoint forEach_from {St A : Type} (body : A -> nat -> M St unit)
  (idx : nat) (arr : list A) : M St unit :=
  match arr with
  | [] => ret tt
  | x :: rest => bind (body x idx) (fun _ => forEach_from body (S idx) rest)
  end.

Definition Array_forEach {St A : Type} (body : A -> nat -> M St unit)
  (arr : list A) : M St unit :=
  forEach_from body 0 arr.

End JS.

Import JS.

Notation "x <- m ;; k" := (bind m (fun x => k))
  (at level 61, m at next level, right associativity).
Notation "m ;;; k" := (bind m (fun _ => k))
  (at level 61, right associativity).

(* ===================================================================== *)
(** * Data handed to the base class *)
(* ===================================================================== *)

(** An entry of the legend: [{ id, label, color }]. *)
Module LegendItem.
Record t : Type := Build { id : string; label : string; color : string }.
End LegendItem.

(** The options of one [plotPath] call. *)
Module PathOptions.
Record t : Type := Build {
  stroke : string;
  className : string;
  id : string;
  tooltipInnerHTML : string
}.
End PathOptions.

(** The arrow function [(id, visible) => { this.legendOnToggle(id, visible) }]
    given to [createLegendRow], kept by name; [run_callback] below gives
    it its meaning. *)
Inductive callback : Type := CallLegendOnToggle.

Module LegendOptions.
Record t : Type := Build { checkboxName : string; onToggle : callback }.
End LegendOptions.

(** One path element of the drawing surface.  [display = None] is the
    unset style, under which the path is shown. *)
Record path_element (Point : Type) : Type := Build_path_element {
  el_id : string;
  el_class : string;
  el_stroke : string;
  el_tooltip : string;
  el_points : list Point;
  el_display : option string
}.
Arguments Build_path_element {Point}.
Arguments el_id {Point}.
Arguments el_class {Point}.
Arguments el_stroke {Point}.
Arguments el_tooltip {Point}.
Arguments el_points {Point}.
Arguments el_display {Point}.

(** ** Selectors *)

(** The characters of a CSS identifier that need no escape: a letter or
    [_] at the start, then letters, digits, [-] and [_].  A sanitized
    identifier, "DOM/element-safe" as [escapeWorkerId] is to make it, is
    a string of such characters. *)
Definition is_name_start (c : ascii) : bool :=
  let n := nat_of_ascii c in
  ((65 <=? n) && (n <=? 90)) || ((97 <=? n) && (n <=? 122)) || (n =? 95).

Definition is_name_char (c : ascii) : bool :=
  let n := nat_of_ascii c in
  is_name_start c || ((48 <=? n) && (n <=? 57)) || (n =? 45).

Fixpoint sanitized (s : string) : bool :=
  match s with
  | EmptyString => true
  | String c rest => is_name_char c && sanitized rest
  end.

Definition is_identifier (s : string) : bool :=
  match s with
  | EmptyString => false
  | String c rest => is_name_start c && sanitized rest
  end.

(** What an id selector [#<identifier>] selects: the elements whose id
    is the identifier. *)
Definition matches {Point : Type} (selector : string) (el : path_element Point)
  : bool :=
  String.eqb selector ("#" ++ el_id el).

(** Positions, counted from [idx], of the elements that match. *)
Fixpoint matching {Point : Type} (selector : string) (idx : nat)
  (paths : list (path_element Point)) : list nat :=
  match paths with
  | [] => []
  | el :: rest =>
      if matches selector el then idx :: matching selector (S idx) rest
      else matching selector (S idx) rest
  end.

(** Calls received by [BaseModule], in the order they are made. *)
Inductive base_call (Point : Type) : Type :=
| SetBottomScaleType (scale : string)
| SetLeftScaleType (scale : string)
| InitSVG
| PlotPath (points : list Point) (opts : PathOptions.t)
| CreateLegendRow (items : list LegendItem.t) (opts : LegendOptions.t).
Arguments SetBottomScaleType {Point}.
Arguments SetLeftScaleType {Point}.
Arguments InitSVG {Point}.
Arguments PlotPath {Point}.
Arguments CreateLegendRow {Point}.

(** [this.data]: the fetched response, whose [transfers] field maps a
    worker name to its points. *)
Record response (Point : Type) : Type := Build_response {
  transfers : option (object (list Point))
}.
Arguments Build_response {Point}.
Arguments transfers {Point}.

(** The fields of the instance that the class reads or that its calls to
    the base class change. *)
Record module_state (Point : Type) : Type := Build_module_state {
  data : option (response Point);
  svg : option (list (path_element Point));
  bottomScaleType : string;
  leftScaleType : string;
  calls : list (base_call Point)
}.
Arguments Build_module_state {Point}.
Arguments data {Point}.
Arguments svg {Point}.
Arguments bottomScaleType {Point}.
Arguments leftScaleType {Point}.
Arguments calls {Point}.


(* ===================================================================== *)
(** * Sample helpers and instances *)
(* ===================================================================== *)

(** Concrete stand-ins for what the class is given from outside, on which
    the properties below are exercised. *)
Module Sample.

(** A point: timestamp and value. *)
Definition point : Type := (Z * Z)%type.

(** A comparator that orders strings by their code units. *)
Definition codeUnitCompare (a b : string) : Z :=
  match String.compare a b with
  | Eq => 0
  | Lt => -1
  | Gt => 1
  end%Z.

(** A sanitizer that keeps letters, digits, [-] and [_] and turns every
    other character into [_]. *)
Definition is_id_char (c : ascii) : bool :=
  let n := nat_of_ascii c in
  ((48 <=? n) && (n <=? 57)) || ((65 <=? n) && (n <=? 90))
  || ((97 <=? n) && (n <=? 122)) || (n =? 45) || (n =? 95).

Fixpoint underscoreEscape (s : string) : string :=
  match s with
  | EmptyString => EmptyString
  | String c rest =>
      String (if is_id_char c then c else "_"%char) (underscoreEscape rest)
  end.

(** A colour picked from a palette by the index. *)
Definition palette : list string :=
  ["#1f77b4"; "#ff7f0e"; "#2ca02c"]%string.

Definition paletteColor (worker : string) (idx : nat) : string :=
  nth (idx mod 3) palette "#000000"%string.

(** An instance as a super constructor may leave it: nothing fetched,
    nothing drawn, scales of some other type. *)
Definition freshModule (id title api_url : string) : module_state point :=
  Build_module_state None None "time" "log" [].

Definition with_data (d : option (response point)) : module_state point :=
  Build_module_state d None "linear" "linear" [].

(** The dataset of the specification's example, [w2] before [w1]. *)
Definition two_workers : object (list point) :=
  [("w2"%string, [(0, 5); (1, 7)]%Z); ("w1"%string, [(0, 1)]%Z)].

(** Worker names as the dashboard has them: address and port. *)
Definition two_addresses : object (list point) :=
  [("10.0.0.2:9123"%string, [(0, 5); (1, 7)]%Z);
   ("10.0.0.1:9123"%string, [(0, 1)]%Z)].

Definition no_data : module_state point := with_data None.

Definition no_transfers : module_state point :=
  with_data (Some (Build_response None)).

Definition empty_dataset : module_state point :=
  with_data (Some (Build_response (Some []))).

Definition loaded : module_state point :=
  with_data (Some (Build_response (Some two_workers))).

Definition loaded_addresses : module_state point :=
  with_data (Some (Build_response (Some two_addresses))).

(** The instance after the two addresses have been plotted. *)
Definition plotted_addresses : module_state point :=
  Build_module_state
    (Some (Build_response (Some two_addresses)))
    (Some
       [Build_path_element "transfer-10_0_0_2_9123" "transfer-line" "#1f77b4"
          "10.0.0.2:9123" [(0, 5); (1, 7)]%Z None;
        Build_path_element "transfer-10_0_0_1_9123" "transfer-line" "#ff7f0e"
          "10.0.0.1:9123" [(0, 1)]%Z None])
    "linear" "linear"
    [InitSVG;
     PlotPath [(0, 5); (1, 7)]%Z
       (PathOptions.Build "#1f77b4" "transfer-line" "transfer-10_0_0_2_9123"
          "10.0.0.2:9123");
     PlotPath [(0, 1)]%Z
       (PathOptions.Build "#ff7f0e" "transfer-line" "transfer-10_0_0_1_9123"
          "10.0.0.1:9123")].

(** A selector engine that knows id selectors only and rejects every
    other selector text. *)
Definition idSelectorEngine (selector : string)
  (paths : list (path_element point)) : completion (list nat) :=
  match selector with
  | String "#"%char name =>
      if is_identifier name then Normal (matching selector 0 paths)
      else Throw SyntaxError
  | _ => Throw SyntaxError
  end.

(** Two worker names that differ in a character the sanitizer replaces. *)
Definition two_colliding : object (list point) :=
  [("a.b"%string, [(0, 5)]%Z); ("a:b"%string, [(0, 1)]%Z)].

Definition loaded_colliding : module_state point :=
  with_data (Some (Build_response (Some two_colliding))).

(** The same two workers in the other property order. *)
Definition two_workers_swapped : object (list point) :=
  [("w1"%string, [(0, 1)]%Z); ("w2"%string, [(0, 5); (1, 7)]%Z)].

Definition loaded_swapped : module_state point :=
  with_data (Some (Build_response (Some two_workers_swapped))).

(** The legend item of the worker [10.0.0.1:9123]. *)
Definition address_item : LegendItem.t :=
  LegendItem.Build "10_0_0_1_9123" "10.0.0.1:9123" "#ff7f0e".

End Sample.

(* ===================================================================== *)
(** * The class *)
(* ===================================================================== *)

Section WorkerOutgoingTransfersModule.

(** A point of a series ([{timestamp, value}]); the class only passes
    points on. *)
Variable Point : Type.

(** [escapeWorkerId] and [getWorkerColor] of utils.js. *)
Variable escapeWorkerId : string -> string.
Variable getWorkerColor : string -> nat -> string.

(** [String.prototype.localeCompare]: negative, zero or positive. *)
Variable localeCompare : string -> string -> Z.

(** The selector engine behind d3's [selectAll]
    ([Element.querySelectorAll]): the positions, on the surface, of the
    elements a selector selects, or the exception it throws. *)
Variable querySelectorAll :
  string -> list (path_element Point) -> completion (list nat).

(** The instance as [super(id, title, api_url)] leaves it. *)
Variable BaseModule_constructor : string -> string -> string -> module_state Point.

Local Abbreviation state := (module_state Point).
Local Abbreviation method := (M state).

(** ** Field updates *)

Definition set_svg (v : option (list (path_element Point))) (st : state) : state :=
  Build_module_state (data st) v (bottomScaleType st) (leftScaleType st) (calls st).

Definition set_bottomScaleType (v : string) (st : state) : state :=
  Build_module_state (data st) (svg st) v (leftScaleType st) (calls st).

Definition set_leftScaleType (v : string) (st : state) : state :=
  Build_module_state (data st) (svg st) (bottomScaleType st) v (calls st).

Definition set_calls (v : list (base_call Point)) (st : state) : state :=
  Build_module_state (data st) (svg st) (bottomScaleType st) (leftScaleType st) v.

(** ** Methods inherited from [BaseModule] *)

Definition called (c : base_call Point) : method unit :=
  modify (fun st => set_calls (calls st ++ [c]) st).

(** Modelled from the spec: base.js is missing; [setBottomScaleType] and
    [setLeftScaleType] change the chart's scale configuration ("mutates
    shared chart configuration state"). *)
Definition setBottomScaleType (scale : string) : method unit :=
  called (SetBottomScaleType scale) ;;; modify (set_bottomScaleType scale).

Definition setLeftScaleType (scale : string) : method unit :=
  called (SetLeftScaleType scale) ;;; modify (set_leftScaleType scale).

(** Modelled from the spec: base.js is missing; [initSVG] "initializes the
    drawing surface", and a render "fully re-draws", so the surface starts
    without paths. *)
Definition initSVG : method unit :=
  called InitSVG ;;; modify (set_svg (Some [])).

Definition new_path (points : list Point) (opts : PathOptions.t)
  : path_element Point :=
  Build_path_element (PathOptions.id opts) (PathOptions.className opts)
    (PathOptions.stroke opts) (PathOptions.tooltipInnerHTML opts) points None.

(** Modelled from the spec: base.js is missing; [plotPath] draws one line
    path with the given stroke, class, element identifier and tooltip on
    the surface [this.svg]. *)
Definition plotPath (points : list Point) (opts : PathOptions.t) : method unit :=
  called (PlotPath points opts) ;;;
  surface <- gets svg ;;
  match surface with
  | None => throw TypeError
  | Some paths => modify (set_svg (Some (paths ++ [new_path points opts])))
  end.

(** Modelled from the spec: base.js is missing; [createLegendRow] is the
    request to render a legend row, with the items in the order given. *)
Definition createLegendRow (items : list LegendItem.t) (opts : LegendOptions.t)
  : method unit :=
  called (CreateLegendRow items opts).

(** ** The d3 selection used by [legendOnToggle] *)

(** [this.svg.selectAll(selector)] hands the selector text to the
    selector engine of the document; the selection holds the selected
    elements by position on the surface.  A selector that does not parse
    makes the engine throw. *)
Definition selectAll (selector : string) : method (list nat) :=
  surface <- gets svg ;;
  match surface with
  | None => throw TypeError
  | Some paths => lift (querySelectorAll selector paths)
  end.

Definition set_display (value : option string) (el : path_element Point)
  : path_element Point :=
  Build_path_element (el_id el) (el_class el) (el_stroke el) (el_tooltip el)
    (el_points el) value.

Definition selected (selection : list nat) (idx : nat) : bool :=
  existsb (Nat.eqb idx) selection.

(** [selection.style(name, value)] on every selected element; a [null]
    value removes the style.  [display] is the one style of a path that is
    kept. *)
Definition style (selection : list nat) (name : string) (value : option string)
  : method unit :=
  modify (fun st =>
    set_svg
      (option_map
         (Array_map (fun el idx =>
            if selected selection idx && String.eqb name "display"
            then set_display value el else el))
         (svg st))
      st).

(** ** The methods of the class *)

(** [this.data.transfers]: a property of [undefined] cannot be read. *)
Definition data_transfers (d : option (response Point))
  : completion (option (object (list Point))) :=
  match d with
  | None => Throw TypeError
  | Some r => Normal (transfers r)
  end.

Definition constructor (id title api_url : string) : completion unit * state :=
  (setBottomScaleType "linear" ;;; setLeftScaleType "linear")
    (BaseModule_constructor id title api_url).

Definition legendOnToggle (id : string) (visible : bool) : method unit :=
  path <- selectAll ("#transfer-" ++ id) ;;
  style path "display" (if visible then None else Some "none"%string).

Definition run_callback (cb : callback) : string -> bool -> method unit :=
  match cb with
  | CallLegendOnToggle => legendOnToggle
  end.

Definition legendItem (worker : string) (idx : nat) : LegendItem.t :=
  LegendItem.Build (escapeWorkerId worker) worker (getWorkerColor worker idx).

Definition byLabel (a b : LegendItem.t) : Z :=
  localeCompare (LegendItem.label a) (LegendItem.label b).

Definition legendItems (keys : list string) : list LegendItem.t :=
  Array_sort byLabel (Array_map legendItem keys).

Definition initLegend : method unit :=
  d <- gets data ;;
  mapping <- lift (data_transfers d) ;;
  keys <- lift (Object_keys mapping) ;;
  createLegendRow (legendItems keys)
    (LegendOptions.Build "outgoing-transfers" CallLegendOnToggle).

Definition pathOptions (worker : string) (idx : nat) : PathOptions.t :=
  let safeId := escapeWorkerId worker in
  let color := getWorkerColor worker idx in
  PathOptions.Build color "transfer-line" ("transfer-" ++ safeId) worker.

Definition plot : method unit :=
  d <- gets data ;;
  match d with
  | None => ret tt
  | Some r =>
      initSVG ;;;
      entries <- lift (Object_entries (transfers r)) ;;
      Array_forEach
        (fun (entry : string * list Point) idx =>
           let (worker, points) := entry in
           plotPath points (pathOptions worker idx))
        entries
  end.


(** ** What the properties speak about *)

(** One [plotPath] request: the points and the options. *)
Definition draw : Type := (list Point * PathOptions.t)%type.

Definition draw_call (d : draw) : base_call Point := PlotPath (fst d) (snd d).

Definition draw_path (d : draw) : path_element Point := new_path (fst d) (snd d).

(** The requests that the loop of [plot] makes for the entries of a
    mapping, the first entry having index [idx]. *)
Definition draws_from (idx : nat) (entries : list (string * list Point))
  : list draw :=
  map_from (fun entry i => (snd entry, pathOptions (fst entry) i)) idx entries.

(** The options given with every legend row. *)
Definition legendOptions : LegendOptions.t :=
  LegendOptions.Build "outgoing-transfers" CallLegendOnToggle.

(** Modelled from the spec: utils.js is missing; the spec asks of
    [escapeWorkerId] that "sanitization must be injective over the
    expected input alphabet", here over the worker names of one dataset. *)
Definition injective_on (names : list string) : Prop :=
  forall a b, In a names -> In b names ->
    escapeWorkerId a = escapeWorkerId b -> a = b.

(** What every selector engine does with an id selector: for an
    identifier, [#<identifier>] parses and selects the elements with that
    id.  Nothing is said of any other selector text. *)
Definition id_selector_law : Prop :=
  forall name paths,
    is_identifier name = true ->
    querySelectorAll ("#" ++ name) paths = Normal (matching ("#" ++ name) 0 paths).


Definition shown (el : path_element Point) : Prop := el_display el = None.

(** What a toggle does to one path: the path whose id is
    [transfer-<id>] gets the display value, any other path is left as it
    is. *)
Definition display_value (visible : bool) : option string :=
  if visible then None else Some "none"%string.

Definition toggled (id : string) (visible : bool) (el : path_element Point)
  : path_element Point :=
  if String.eqb (el_id el) ("transfer-" ++ id)
  then set_display (display_value visible) el
  else el.

(* ===================================================================== *)
(** * Properties *)
(* ===================================================================== *)

(** ** Arrays *)

Lemma map_from_length {A B : Type} (f : A -> nat -> B) (arr : list A) :
  forall idx, List.length (map_from f idx arr) = List.length arr.
Proof.
  induction arr as [| x rest IH]; intro idx; simpl.
  - reflexivity.
  - now rewrite IH.
Qed.

Lemma map_from_app {A B : Type} (f : A -> nat -> B) (xs ys : list A) :
  forall idx,
    map_from f idx (xs ++ ys)
    = map_from f idx xs ++ map_from f (idx + List.length xs) ys.
Proof.
  induction xs as [| x rest IH]; intro idx; simpl.
  - now rewrite Nat.add_0_r.
  - rewrite IH. now rewrite Nat.add_succ_r.
Qed.

(** The element at position [k] of [arr.map(f)] is [f(arr[k], k)]. *)
Lemma map_from_nth_error {A B : Type} (f : A -> nat -> B) (arr : list A) :
  forall idx k,
    nth_error (map_from f idx arr) k
    = option_map (fun x => f x (idx + k)) (nth_error arr k).
Proof.
  induction arr as [| x rest IH]; intros idx k.
  - now destruct k.
  - destruct k as [| k]; simpl.
    + now rewrite Nat.add_0_r.
    + rewrite IH. now rewrite Nat.add_succ_r.
Qed.

Lemma In_map_from {A B : Type} (f : A -> nat -> B) (arr : list A) (y : B) :
  forall idx,
    In y (map_from f idx arr) <->
    exists k x, nth_error arr k = Some x /\ y = f x (idx + k).
Proof.
  intro idx. split.
  - intro Hin. apply In_nth_error in Hin. destruct Hin as [k Hk].
    rewrite map_from_nth_error in Hk.
    destruct (nth_error arr k) as [x |] eqn:Hx; [| discriminate].
    exists k, x. split; [exact Hx |]. simpl in Hk. congruence.
  - intros (k & x & Hx & ->).
    apply nth_error_In with (n := k).
    rewrite map_from_nth_error, Hx. reflexivity.
Qed.

(** Projections that ignore the index commute with [map]. *)
Lemma map_map_from {A B C : Type} (f : A -> nat -> B) (g : B -> C) (h : A -> C) :
  (forall x idx, g (f x idx) = h x) ->
  forall arr idx, map g (map_from f idx arr) = map h arr.
Proof.
  intros Hgf arr. induction arr as [| x rest IH]; intro idx; simpl.
  - reflexivity.
  - now rewrite Hgf, IH.
Qed.

(** ** Sorting *)

Lemma insert_Permutation {A : Type} (cmp : A -> A -> Z) (x : A) (l : list A) :
  Permutation (insert cmp x l) (x :: l).
Proof.
  induction l as [| y rest IH]; simpl.
  - apply Permutation_refl.
  - destruct (0 <? cmp x y)%Z.
    + apply Permutation_trans with (y :: x :: rest).
      * now apply perm_skip.
      * apply perm_swap.
    + apply Permutation_refl.
Qed.

Lemma Array_sort_Permutation {A : Type} (cmp : A -> A -> Z) (arr : list A) :
  Permutation (Array_sort cmp arr) arr.
Proof.
  induction arr as [| x rest IH]; simpl.
  - apply perm_nil.
  - apply Permutation_trans with (x :: Array_sort cmp rest).
    + apply insert_Permutation.
    + now apply perm_skip.
Qed.

Section Comparator.

Variable A : Type.
Variable cmp : A -> A -> Z.

(** A consistent comparator: of two elements one is not after the other,
    and "not after" is transitive. *)
Hypothesis cmp_total : forall a b, (0 < cmp a b)%Z -> (cmp b a <= 0)%Z.
Hypothesis cmp_trans :
  forall a b c, (cmp a b <= 0)%Z -> (cmp b c <= 0)%Z -> (cmp a c <= 0)%Z.

Lemma insert_Forall (P : A -> Prop) (x : A) (l : list A) :
  P x -> Forall P l -> Forall P (insert cmp x l).
Proof.
  intros Hx Hl. induction Hl as [| y rest Hy Hrest IH]; simpl.
  - now constructor.
  - destruct (0 <? cmp x y)%Z; repeat constructor; assumption.
Qed.

Lemma insert_StronglySorted (x : A) (l : list A) :
  StronglySorted (not_after cmp) l -> StronglySorted (not_after cmp) (insert cmp x l).
Proof.
  intro Hs. induction Hs as [| y rest Hrest IH Hy]; simpl.
  - repeat constructor.
  - destruct (0 <? cmp x y)%Z eqn:Hxy.
    + apply Z.ltb_lt in Hxy. constructor; [exact IH |].
      apply insert_Forall; [| exact Hy].
      now apply cmp_total.
    + apply Z.ltb_ge in Hxy. constructor.
      * now constructor.
      * constructor; [exact Hxy |].
        eapply Forall_impl; [| exact Hy].
        intros z Hz. now apply cmp_trans with y.
Qed.

Lemma Array_sort_StronglySorted (arr : list A) :
  StronglySorted (not_after cmp) (Array_sort cmp arr).
Proof.
  induction arr as [| x rest IH]; simpl.
  - constructor.
  - now apply insert_StronglySorted.
Qed.

End Comparator.

(** ** Running the methods *)

Lemma bind_Normal {St X Y : Type} (m : M St X) (k : X -> M St Y) st x st' :
  m st = (Normal x, st') -> bind m k st = k x st'.
Proof. intro H. unfold bind. now rewrite H. Qed.

Lemma bind_Throw {St X Y : Type} (m : M St X) (k : X -> M St Y) st e st' :
  m st = (Throw e, st') -> bind m k st = (Throw e, st').
Proof. intro H. unfold bind. now rewrite H. Qed.

Lemma plotPath_run (points : list Point) (opts : PathOptions.t) st paths :
  svg st = Some paths ->
  plotPath points opts st
  = (Normal tt,
     set_svg (Some (paths ++ [new_path points opts]))
       (set_calls (calls st ++ [PlotPath points opts]) st)).
Proof.
  intro Hsvg. destruct st as [d s b l c]. simpl in Hsvg. subst s.
  reflexivity.
Qed.

(** The loop of [plot] on an initialised surface: one call and one path
    for each entry, in the order of the entries. *)
Lemma forEach_plotPath (entries : list (string * list Point)) :
  forall idx st paths,
    svg st = Some paths ->
    forEach_from
      (fun (entry : string * list Point) i =>
         let (worker, points) := entry in
         plotPath points (pathOptions worker i))
      idx entries st
    = (Normal tt,
       set_svg (Some (paths ++ map draw_path (draws_from idx entries)))
         (set_calls (calls st ++ map draw_call (draws_from idx entries)) st)).
Proof.
  induction entries as [| [worker points] rest IH]; intros idx st paths Hsvg.
  - destruct st as [d s b l c]. simpl in *. subst s.
    now rewrite !app_nil_r.
  - simpl forEach_from.
    erewrite bind_Normal; [| apply plotPath_run; exact Hsvg].
    erewrite IH; [| reflexivity].
    destruct st as [d s b l c]. simpl in *.
    unfold set_svg, set_calls, draw_path, draw_call; simpl.
    now rewrite <- !app_assoc.
Qed.

Lemma plot_run st r entries :
  data st = Some r ->
  transfers r = Some entries ->
  plot st
  = (Normal tt,
     set_svg (Some (map draw_path (draws_from 0 entries)))
       (set_calls (calls st ++ InitSVG :: map draw_call (draws_from 0 entries))
          st)).
Proof.
  intros Hdata Htr. destruct st as [d s b l c]. simpl in Hdata. subst d.
  unfold plot, bind at 1. simpl gets. cbv beta iota.
  unfold initSVG, called, modify, bind at 1 2. simpl.
  rewrite Htr. unfold bind, lift, Object_entries, Array_forEach.
  erewrite forEach_plotPath; [| reflexivity].
  unfold set_svg, set_calls; simpl.
  now rewrite <- app_assoc.
Qed.

Lemma initLegend_run st r entries :
  data st = Some r ->
  transfers r = Some entries ->
  initLegend st
  = (Normal tt,
     set_calls
       (calls st ++ [CreateLegendRow (legendItems (map fst entries)) legendOptions])
       st).
Proof.
  intros Hdata Htr. unfold initLegend, bind, gets, lift.
  rewrite Hdata. simpl. rewrite Htr. reflexivity.
Qed.

(** ** The selection of [legendOnToggle] *)

Lemma matches_id (id : string) (el : path_element Point) :
  matches ("#transfer-" ++ id) el = String.eqb (el_id el) ("transfer-" ++ id).
Proof.
  unfold matches.
  destruct (String.eqb_spec ("#transfer-" ++ id) ("#" ++ el_id el)) as [H | H],
           (String.eqb_spec (el_id el) ("transfer-" ++ id)) as [H' | H'];
    try reflexivity; exfalso.
  - apply H'. simpl in H. now inversion H.
  - apply H. rewrite H'. reflexivity.
Qed.

Lemma In_matching (selector : string) (paths : list (path_element Point)) :
  forall idx k,
    In k (matching selector idx paths) <->
    exists j el,
      k = idx + j /\ nth_error paths j = Some el /\ matches selector el = true.
Proof.
  induction paths as [| el rest IH]; intros idx k; simpl.
  - split; [intros [] |]. intros (j & e & _ & Hj & _). now destruct j.
  - assert (Hrest : In k (matching selector (S idx) rest) <->
                    exists j e, k = idx + S j /\ nth_error rest j = Some e
                                /\ matches selector e = true).
    { rewrite IH. split; intros (j & e & Hk & H); exists j, e;
        (split; [lia | exact H]). }
    destruct (matches selector el) eqn:Hel; simpl; rewrite Hrest; split.
    + intros [<- | (j & e & Hk & H)].
      * exists 0, el. repeat split; [lia | assumption].
      * exists (S j), e. now split.
    + intros (j & e & Hk & Hj & He). destruct j as [| j].
      * left. lia.
      * right. exists j, e. now repeat split.
    + intros (j & e & Hk & H). exists (S j), e. now split.
    + intros (j & e & Hk & Hj & He). destruct j as [| j].
      * simpl in Hj. congruence.
      * exists j, e. now repeat split.
Qed.

Lemma selected_matching (selector : string) (paths : list (path_element Point))
  (k : nat) (el : path_element Point) :
  nth_error paths k = Some el ->
  selected (matching selector 0 paths) k = matches selector el.
Proof.
  intro Hk. unfold selected.
  destruct (matches selector el) eqn:Hel.
  - apply existsb_exists. exists k. split; [| apply Nat.eqb_refl].
    apply In_matching. exists k, el. now repeat split.
  - destruct (existsb (Nat.eqb k) (matching selector 0 paths)) eqn:Hex;
      [| reflexivity].
    apply existsb_exists in Hex. destruct Hex as (k' & Hin & Heq).
    apply Nat.eqb_eq in Heq. subst k'.
    apply In_matching in Hin. destruct Hin as (j & e & Hj & Hnth & He).
    simpl in Hj. subst j. congruence.
Qed.

(** Styling the selection of [#transfer-<id>] restyles the paths with
    that id and no other. *)
Lemma style_selection (id : string) (visible : bool)
  (paths : list (path_element Point)) :
  Array_map
    (fun el idx =>
       if selected (matching ("#transfer-" ++ id) 0 paths) idx
          && String.eqb "display" "display"
       then set_display (display_value visible) el else el)
    paths
  = map (toggled id visible) paths.
Proof.
  apply nth_error_ext. intro k. unfold Array_map.
  rewrite map_from_nth_error, nth_error_map.
  destruct (nth_error paths k) as [el |] eqn:Hk; [| reflexivity].
  cbn [option_map]. change (0 + k) with k.
  rewrite (selected_matching _ _ _ _ Hk), matches_id.
  unfold toggled. rewrite String.eqb_refl. now rewrite andb_true_r.
Qed.

(** On a set surface the toggle styles what the engine selects, or
    passes on the exception of the engine. *)
Lemma legendOnToggle_on_surface (id : string) (visible : bool) st paths :
  svg st = Some paths ->
  legendOnToggle id visible st
  = match querySelectorAll ("#transfer-" ++ id) paths with
    | Normal selection =>
        (Normal tt,
         set_svg
           (Some
              (Array_map
                 (fun el idx =>
                    if selected selection idx && String.eqb "display" "display"
                    then set_display (display_value visible) el else el)
                 paths))
           st)
    | Throw e => (Throw e, st)
    end.
Proof.
  intro Hsvg. unfold legendOnToggle, selectAll, bind, gets.
  rewrite Hsvg. unfold lift.
  destruct (querySelectorAll ("#transfer-" ++ id) paths) as [selection | e];
    [| reflexivity].
  unfold style, modify. now rewrite Hsvg.
Qed.

(** Whatever is selected, styling keeps every attribute but the display. *)
Lemma style_keeps_attributes (selection : list nat) (name : string)
  (value : option string) (paths : list (path_element Point)) :
  map (set_display None)
    (Array_map
       (fun el idx =>
          if selected selection idx && String.eqb name "display"
          then set_display value el else el)
       paths)
  = map (set_display None) paths.
Proof.
  unfold Array_map. generalize 0.
  induction paths as [| el rest IH]; intro idx; simpl.
  - reflexivity.
  - rewrite IH. f_equal.
    now destruct (selected selection idx && String.eqb name "display").
Qed.

Lemma transfer_is_identifier (id : string) :
  is_identifier ("transfer-" ++ id) = sanitized id.
Proof. reflexivity. Qed.

Section SelectorLaw.

(** From here on the engine treats id selectors as every engine does. *)
Hypothesis engine_law : id_selector_law.

Lemma legendOnToggle_run (id : string) (visible : bool) st paths :
  sanitized id = true ->
  svg st = Some paths ->
  legendOnToggle id visible st
  = (Normal tt, set_svg (Some (map (toggled id visible) paths)) st).
Proof.
  intros Hid Hsvg. rewrite (legendOnToggle_on_surface id visible st paths Hsvg).
  change ("#transfer-" ++ id)%string with ("#" ++ ("transfer-" ++ id))%string.
  rewrite (engine_law ("transfer-" ++ id)%string paths)
    by (now rewrite transfer_is_identifier).
  rewrite <- style_selection. reflexivity.
Qed.

Lemma legendOnToggle_no_surface (id : string) (visible : bool) st :
  svg st = None ->
  legendOnToggle id visible st = (Throw TypeError, st).
Proof.
  intro Hsvg. unfold legendOnToggle, selectAll, bind, gets.
  now rewrite Hsvg.
Qed.

Lemma toggled_id (id : string) (visible : bool) (el : path_element Point) :
  el_id (toggled id visible el) = el_id el.
Proof. unfold toggled. now destruct (String.eqb _ _). Qed.


Lemma set_svg_same st paths : svg st = Some paths -> set_svg (Some paths) st = st.
Proof. intro H. destruct st as [d s b l c]. simpl in H. now subst s. Qed.

(** ** Lists without repetition *)

Lemma NoDup_map_on {X Y : Type} (f : X -> Y) (l : list X) :
  (forall a b, In a l -> In b l -> f a = f b -> a = b) ->
  NoDup l -> NoDup (map f l).
Proof.
  intros Hinj Hnd. induction Hnd as [| x rest Hx Hrest IH]; simpl.
  - constructor.
  - constructor.
    + intro Hin. apply in_map_iff in Hin. destruct Hin as (y & Hy & Hiny).
      assert (y = x) by (apply Hinj; simpl; auto).
      now subst y.
    + apply IH. intros a b Ha Hb. apply Hinj; simpl; auto.
Qed.

Lemma NoDup_map_injective {X Y : Type} (f : X -> Y) (l : list X) :
  NoDup (map f l) ->
  forall a b, In a l -> In b l -> f a = f b -> a = b.
Proof.
  induction l as [| x rest IH]; intros Hnd a b Ha Hb Heq; [now elim Ha |].
  simpl in Hnd. apply NoDup_cons_iff in Hnd. destruct Hnd as [Hx Hrest].
  destruct Ha as [<- | Ha]; destruct Hb as [<- | Hb].
  - reflexivity.
  - exfalso. apply Hx. rewrite Heq. now apply in_map.
  - exfalso. apply Hx. rewrite <- Heq. now apply in_map.
  - now apply IH.
Qed.

Lemma NoDup_same_position {X : Type} (l : list X) (i j : nat) (x : X) :
  NoDup l -> nth_error l i = Some x -> nth_error l j = Some x -> i = j.
Proof.
  intros Hnd Hi Hj.
  apply (proj1 (NoDup_nth_error l) Hnd).
  - apply nth_error_Some. congruence.
  - congruence.
Qed.

Lemma StronglySorted_map {X Y : Type} (f : X -> Y) (R : Y -> Y -> Prop)
  (l : list X) :
  StronglySorted (fun a b => R (f a) (f b)) l -> StronglySorted R (map f l).
Proof.
  intro Hs. induction Hs as [| x rest Hrest IH Hx]; simpl.
  - constructor.
  - constructor; [exact IH |].
    apply Forall_map. exact Hx.
Qed.

(** ** The draw requests of a dataset *)

Lemma draws_tooltips (entries : list (string * list Point)) (idx : nat) :
  map (fun d : draw => (PathOptions.tooltipInnerHTML (snd d), fst d))
    (draws_from idx entries)
  = entries.
Proof.
  unfold draws_from.
  rewrite map_map_from with (h := fun e : string * list Point => e).
  - apply map_id.
  - now intros [worker points] i.
Qed.

Lemma draws_ids (entries : list (string * list Point)) (idx : nat) :
  map (fun d : draw => PathOptions.id (snd d)) (draws_from idx entries)
  = map (fun worker => ("transfer-" ++ escapeWorkerId worker)%string)
      (map fst entries).
Proof.
  unfold draws_from. rewrite map_map.
  now apply map_map_from.
Qed.

Lemma draws_nth_error (entries : list (string * list Point)) (k : nat) (d : draw) :
  nth_error (draws_from 0 entries) k = Some d ->
  exists worker points,
    nth_error entries k = Some (worker, points)
    /\ d = (points, pathOptions worker k).
Proof.
  unfold draws_from. rewrite map_from_nth_error.
  destruct (nth_error entries k) as [[worker points] |]; [| discriminate].
  simpl. intro H. exists worker, points. split; congruence.
Qed.

Lemma legendItems_In (keys : list string) (item : LegendItem.t) :
  In item (legendItems keys) ->
  exists k worker, nth_error keys k = Some worker /\ item = legendItem worker k.
Proof.
  intro Hin. unfold legendItems in Hin.
  apply (Permutation_in _ (Array_sort_Permutation byLabel _)) in Hin.
  apply In_map_from in Hin. exact Hin.
Qed.

Lemma legendItems_labels (keys : list string) :
  Permutation (map LegendItem.label (legendItems keys)) keys.
Proof.
  unfold legendItems.
  apply Permutation_trans
    with (map LegendItem.label (Array_map legendItem keys)).
  - apply Permutation_map, Array_sort_Permutation.
  - unfold Array_map.
    rewrite map_map_from with (h := fun worker : string => worker).
    + rewrite map_id. apply Permutation_refl.
    + reflexivity.
Qed.

(* ===================================================================== *)
(** * The claims *)
(* ===================================================================== *)

(** C1: what [initLegend] does while no dataset is set.  The method has
    no guard: reading [this.data.transfers] throws a [TypeError]; no
    legend row is requested and the instance is left as it was. *)
Theorem initLegend_without_dataset st :
  data st = None ->
  initLegend st = (Throw TypeError, st).
Proof.
  intro Hdata. unfold initLegend, bind, gets, lift.
  now rewrite Hdata.
Qed.

(** C2: [plot] called while no dataset is present returns normally and
    changes nothing: [initSVG] is not called, no path is drawn. *)
Theorem plot_without_dataset st :
  data st = None ->
  plot st = (Normal tt, st).
Proof.
  intro Hdata. unfold plot, bind, gets.
  now rewrite Hdata.
Qed.

(** C3: for a dataset (with or without workers) [initLegend] requests one
    legend row whose items carry exactly the worker keys of the dataset
    as labels, one item per key with the sanitized key as id, and the
    items are sorted ascending by label in the order of [localeCompare],
    whatever the order of the keys in the mapping. *)
Theorem initLegend_items_sorted st (dataset : object (list Point)) :
  (forall a b, (0 < localeCompare a b)%Z -> (localeCompare b a <= 0)%Z) ->
  (forall a b c, (localeCompare a b <= 0)%Z -> (localeCompare b c <= 0)%Z ->
                 (localeCompare a c <= 0)%Z) ->
  data st = Some (Build_response (Some dataset)) ->
  exists items,
    initLegend st
    = (Normal tt,
       set_calls (calls st ++ [CreateLegendRow items legendOptions]) st)
    /\ Permutation (map LegendItem.label items) (map fst dataset)
    /\ List.length items = List.length dataset
    /\ Forall
         (fun item => LegendItem.id item = escapeWorkerId (LegendItem.label item))
         items
    /\ StronglySorted (not_after localeCompare) (map LegendItem.label items).
Proof.
  intros Htotal Htrans Hdata.
  exists (legendItems (map fst dataset)).
  split; [now apply initLegend_run with (r := Build_response (Some dataset)) |].
  split; [apply legendItems_labels |].
  split.
  { rewrite <- (length_map LegendItem.label).
    rewrite (Permutation_length (legendItems_labels _)).
    apply length_map. }
  split.
  { apply Forall_forall. intros item Hin.
    apply legendItems_In in Hin. destruct Hin as (k & worker & _ & ->).
    reflexivity. }
  apply StronglySorted_map.
  apply (Array_sort_StronglySorted _ byLabel).
  - intros a b. apply Htotal.
  - intros a b c. apply Htrans.
Qed.

(** C4: for a dataset [plot] initialises the surface and then draws
    exactly one path per entry of the mapping, in the order of the
    entries: the path of a worker has the worker's points, the raw worker
    name as tooltip, the class [transfer-line], the colour
    [getWorkerColor(worker, idx)] as stroke and the element identifier
    [transfer-<escapeWorkerId(worker)>].  The method does nothing of its
    own to keep the identifiers apart: they are pairwise distinct exactly
    when the sanitization is injective on the worker names. *)
Theorem plot_one_path_per_worker st (dataset : object (list Point)) :
  data st = Some (Build_response (Some dataset)) ->
  exists drawn : list draw,
    plot st
    = (Normal tt,
       set_svg (Some (map draw_path drawn))
         (set_calls (calls st ++ InitSVG :: map draw_call drawn) st))
    /\ map (fun d : draw => (PathOptions.tooltipInnerHTML (snd d), fst d)) drawn
       = dataset
    /\ (forall idx d, nth_error drawn idx = Some d ->
          PathOptions.stroke (snd d)
          = getWorkerColor (PathOptions.tooltipInnerHTML (snd d)) idx
          /\ PathOptions.className (snd d) = "transfer-line"%string
          /\ PathOptions.id (snd d)
             = ("transfer-"
                ++ escapeWorkerId (PathOptions.tooltipInnerHTML (snd d)))%string)
    /\ (wf_object dataset ->
        (NoDup (map (fun d : draw => PathOptions.id (snd d)) drawn)
         <-> injective_on (map fst dataset))).
Proof.
  intros Hdata.
  exists (draws_from 0 dataset).
  split; [now apply plot_run with (r := Build_response (Some dataset)) |].
  split; [apply draws_tooltips |].
  split.
  - intros idx d Hd. apply draws_nth_error in Hd.
    destruct Hd as (worker & points & _ & ->). now repeat split.
  - intro Hwf. rewrite draws_ids. split.
    + intros Hnd a b Ha Hb Heq.
      apply (NoDup_map_injective _ _ Hnd a b Ha Hb).
      now rewrite Heq.
    + intro Hinj. apply NoDup_map_on; [| exact Hwf].
      intros a b Ha Hb Heq. apply Hinj; try assumption.
      simpl in Heq. now inversion Heq.
Qed.

(** C5: on an initialised drawing surface, for an identifier made of
    name characters (a sanitized identifier) such that no path has the
    element identifier [transfer-<id>], [legendOnToggle(id, visible)]
    returns normally for either boolean and leaves the instance, and with
    it the display state of every path, unchanged. *)
Theorem legendOnToggle_unknown_id st paths (id : string) (visible : bool) :
  sanitized id = true ->
  svg st = Some paths ->
  (forall el, In el paths -> el_id el <> ("transfer-" ++ id)%string) ->
  legendOnToggle id visible st = (Normal tt, st).
Proof.
  intros Hid Hsvg Hnone.
  rewrite (legendOnToggle_run id visible st paths Hid Hsvg).
  f_equal. rewrite <- (set_svg_same st paths Hsvg) at 2. f_equal. f_equal.
  rewrite <- (map_id paths) at 2.
  apply map_ext_in. intros el Hin. unfold toggled.
  destruct (String.eqb_spec (el_id el) ("transfer-" ++ id)) as [Heq | Hne].
  - now apply Hnone in Hin.
  - reflexivity.
Qed.


(** C7: the constructor sets the bottom and the left scale type to
    [linear], by one call of each setter and nothing else on top of what
    the super constructor did. *)
Theorem constructor_linear_scales (id title api_url : string) :
  exists st,
    constructor id title api_url = (Normal tt, st)
    /\ bottomScaleType st = "linear"%string
    /\ leftScaleType st = "linear"%string
    /\ calls st
       = calls (BaseModule_constructor id title api_url)
         ++ [SetBottomScaleType "linear"; SetLeftScaleType "linear"]
    /\ data st = data (BaseModule_constructor id title api_url)
    /\ svg st = svg (BaseModule_constructor id title api_url).
Proof.
  unfold constructor.
  destruct (BaseModule_constructor id title api_url) as [d s b l c].
  eexists. split; [reflexivity |]. simpl.
  repeat split. now rewrite <- app_assoc.
Qed.

(** C8: on the empty dataset both methods return normally; [plot]
    initialises the surface and draws no path, [initLegend] requests a
    legend row with no item. *)
Theorem empty_dataset_draws_nothing st :
  data st = Some (Build_response (Some [])) ->
  plot st
  = (Normal tt, set_svg (Some []) (set_calls (calls st ++ [InitSVG]) st))
  /\ initLegend st
     = (Normal tt,
        set_calls (calls st ++ [CreateLegendRow [] legendOptions]) st).
Proof.
  intro Hdata. split.
  - now rewrite (plot_run st _ [] Hdata).
  - now rewrite (initLegend_run st _ [] Hdata).
Qed.

(** C9: for a dataset, the legend item of a worker and the path of that
    worker carry the same colour: whenever an item of the legend row of
    [initLegend] and a path drawn by [plot] belong to the same worker,
    the item's colour is the path's stroke; and every worker has such an
    item and such a path. *)
Theorem legend_color_is_path_stroke st (dataset : object (list Point)) :
  data st = Some (Build_response (Some dataset)) ->
  wf_object dataset ->
  exists (items : list LegendItem.t) (drawn : list draw),
    initLegend st
    = (Normal tt,
       set_calls (calls st ++ [CreateLegendRow items legendOptions]) st)
    /\ plot st
       = (Normal tt,
          set_svg (Some (map draw_path drawn))
            (set_calls (calls st ++ InitSVG :: map draw_call drawn) st))
    /\ (forall worker, In worker (map fst dataset) ->
          exists item d,
            In item items /\ In d drawn
            /\ LegendItem.label item = worker
            /\ PathOptions.tooltipInnerHTML (snd d) = worker)
    /\ (forall item d,
          In item items -> In d drawn ->
          LegendItem.label item = PathOptions.tooltipInnerHTML (snd d) ->
          LegendItem.color item = PathOptions.stroke (snd d)).
Proof.
  intros Hdata Hwf.
  exists (legendItems (map fst dataset)), (draws_from 0 dataset).
  split; [now apply initLegend_run with (r := Build_response (Some dataset)) |].
  split; [now apply plot_run with (r := Build_response (Some dataset)) |].
  split.
  - intros worker Hin.
    assert (Hitem : In worker (map LegendItem.label (legendItems (map fst dataset)))).
    { apply Permutation_in with (map fst dataset); [| exact Hin].
      apply Permutation_sym, legendItems_labels. }
    apply in_map_iff in Hitem. destruct Hitem as (item & Hlabel & Hitem).
    rewrite <- (draws_tooltips dataset 0), map_map in Hin.
    apply in_map_iff in Hin. destruct Hin as (d & Htip & Hd).
    exists item, d. now repeat split.
  - intros item d Hitem Hd Hsame.
    apply legendItems_In in Hitem.
    destruct Hitem as (k & worker & Hk & ->).
    apply In_nth_error in Hd. destruct Hd as (k' & Hk').
    apply draws_nth_error in Hk'.
    destruct Hk' as (worker' & points & Hk' & ->).
    simpl in Hsame. subst worker'.
    assert (Hkeys : nth_error (map fst dataset) k' = Some worker)
      by (rewrite nth_error_map, Hk'; reflexivity).
    assert (k = k') by (eapply NoDup_same_position; eauto).
    now subst k'.
Qed.

(** C10: the guard of [plot] looks at [this.data] only.  When the data
    object is set and has no [transfers] mapping, [plot] initialises the
    surface and then throws a [TypeError] at [Object.entries], and
    [initLegend] throws a [TypeError] at [Object.keys]; neither is a
    silent no-op. *)
Theorem transfers_missing_throws st :
  data st = Some (Build_response None) ->
  plot st
  = (Throw TypeError, set_svg (Some []) (set_calls (calls st ++ [InitSVG]) st))
  /\ initLegend st = (Throw TypeError, st).
Proof.
  intro Hdata. split.
  - unfold plot, bind at 1. unfold gets. rewrite Hdata.
    destruct st as [d s b l c]. reflexivity.
  - unfold initLegend, bind, gets, lift. now rewrite Hdata.
Qed.

(* ===================================================================== *)
(** * Further properties of the methods *)
(* ===================================================================== *)

(** ** Toggles one after the other *)

Lemma transfer_id_eqb (a b : string) :
  String.eqb ("transfer-" ++ a) ("transfer-" ++ b) = String.eqb a b.
Proof.
  destruct (String.eqb_spec ("transfer-" ++ a) ("transfer-" ++ b)) as [H | H],
           (String.eqb_spec a b) as [H' | H'];
    try reflexivity; exfalso.
  - apply H'. simpl in H. now inversion H.
  - apply H. now rewrite H'.
Qed.

Lemma legendOnToggle_then (id1 id2 : string) (v1 v2 : bool) st paths :
  sanitized id1 = true ->
  sanitized id2 = true ->
  svg st = Some paths ->
  (legendOnToggle id1 v1 ;;; legendOnToggle id2 v2) st
  = (Normal tt,
     set_svg (Some (map (toggled id2 v2) (map (toggled id1 v1) paths))) st).
Proof.
  intros Hid1 Hid2 Hsvg.
  erewrite bind_Normal; [| apply legendOnToggle_run; [exact Hid1 | exact Hsvg]].
  erewrite legendOnToggle_run
    by first [exact Hid2 | destruct st; reflexivity].
  reflexivity.
Qed.

Lemma legendOnToggle_then_no_surface (id1 id2 : string) (v1 v2 : bool) st :
  svg st = None ->
  (legendOnToggle id1 v1 ;;; legendOnToggle id2 v2) st = (Throw TypeError, st).
Proof.
  intro Hsvg. apply bind_Throw. now apply legendOnToggle_no_surface.
Qed.

Lemma toggled_last (id : string) (v1 v2 : bool) (el : path_element Point) :
  toggled id v2 (toggled id v1 el) = toggled id v2 el.
Proof.
  unfold toggled at 1. rewrite toggled_id. unfold toggled.
  destruct (String.eqb (el_id el) ("transfer-" ++ id)); reflexivity.
Qed.

Lemma toggled_comm (id1 id2 : string) (v1 v2 : bool) (el : path_element Point) :
  id1 <> id2 ->
  toggled id2 v2 (toggled id1 v1 el) = toggled id1 v1 (toggled id2 v2 el).
Proof.
  intro Hne. unfold toggled at 1 3. rewrite !toggled_id. unfold toggled.
  destruct (String.eqb_spec (el_id el) ("transfer-" ++ id1)) as [H1 | H1];
    destruct (String.eqb_spec (el_id el) ("transfer-" ++ id2)) as [H2 | H2];
    try reflexivity.
  exfalso. apply Hne. rewrite H1 in H2. simpl in H2. now inversion H2.
Qed.

Lemma toggled_hide_show (id : string) (el : path_element Point) :
  (el_id el = ("transfer-" ++ id)%string -> shown el) ->
  toggled id true (toggled id false el) = el.
Proof.
  intro Hshown. rewrite toggled_last. unfold toggled.
  destruct (String.eqb_spec (el_id el) ("transfer-" ++ id)) as [H | H];
    [| reflexivity].
  specialize (Hshown H). unfold shown in Hshown.
  destruct el as [i c s t p d]. simpl in Hshown. subst d. reflexivity.
Qed.

(** X1: of two toggles of the same sanitized identifier the later one
    decides: toggling with [v1] and then with [v2] is the same as
    toggling with [v2] alone, on every instance. *)
Theorem legendOnToggle_last_wins (id : string) (v1 v2 : bool) st :
  sanitized id = true ->
  (legendOnToggle id v1 ;;; legendOnToggle id v2) st = legendOnToggle id v2 st.
Proof.
  intro Hid. destruct (svg st) as [paths |] eqn:Hsvg.
  - rewrite (legendOnToggle_then id id v1 v2 st paths Hid Hid Hsvg).
    rewrite (legendOnToggle_run id v2 st paths Hid Hsvg).
    rewrite map_map. do 3 f_equal.
    apply map_ext. intro el. apply toggled_last.
  - rewrite (legendOnToggle_then_no_surface id id v1 v2 st Hsvg).
    now rewrite (legendOnToggle_no_surface id v2 st Hsvg).
Qed.

(** X2: toggles of two different sanitized identifiers do not interfere:
    they give the same result in either order. *)
Theorem legendOnToggle_commute (id1 id2 : string) (v1 v2 : bool) st :
  sanitized id1 = true ->
  sanitized id2 = true ->
  id1 <> id2 ->
  (legendOnToggle id1 v1 ;;; legendOnToggle id2 v2) st
  = (legendOnToggle id2 v2 ;;; legendOnToggle id1 v1) st.
Proof.
  intros Hid1 Hid2 Hne. destruct (svg st) as [paths |] eqn:Hsvg.
  - rewrite (legendOnToggle_then id1 id2 v1 v2 st paths Hid1 Hid2 Hsvg).
    rewrite (legendOnToggle_then id2 id1 v2 v1 st paths Hid2 Hid1 Hsvg).
    rewrite !map_map. do 3 f_equal.
    apply map_ext. intro el. now apply toggled_comm.
  - rewrite (legendOnToggle_then_no_surface id1 id2 v1 v2 st Hsvg).
    now rewrite (legendOnToggle_then_no_surface id2 id1 v2 v1 st Hsvg).
Qed.

(** X3: hiding and then showing again is a round trip: for a sanitized
    identifier, when the paths with the identifier [transfer-<id>] have
    no display style set, as every freshly drawn path has,
    [legendOnToggle(id, false)] followed by [legendOnToggle(id, true)]
    gives the instance back as it was. *)
Theorem legendOnToggle_hide_then_show st paths (id : string) :
  sanitized id = true ->
  svg st = Some paths ->
  (forall el, In el paths -> el_id el = ("transfer-" ++ id)%string -> shown el) ->
  (legendOnToggle id false ;;; legendOnToggle id true) st = (Normal tt, st).
Proof.
  intros Hid Hsvg Hshown.
  rewrite (legendOnToggle_then id id false true st paths Hid Hid Hsvg).
  f_equal. rewrite <- (set_svg_same st paths Hsvg) at 2. do 2 f_equal.
  rewrite map_map. rewrite <- (map_id paths) at 2.
  apply map_ext_in. intros el Hin.
  apply toggled_hide_show. now apply Hshown.
Qed.

(** X4: a toggle touches nothing but the [display] style: whatever the
    instance and the arguments, the dataset, the scale types and the
    calls made to the base class are as before, and the surface is as
    before up to the display of its paths (same paths in the same order
    with the same id, class, stroke, tooltip and points). *)
Theorem legendOnToggle_changes_display_only (id : string) (visible : bool) st :
  let st' := snd (legendOnToggle id visible st) in
  data st' = data st
  /\ bottomScaleType st' = bottomScaleType st
  /\ leftScaleType st' = leftScaleType st
  /\ calls st' = calls st
  /\ option_map (map (set_display None)) (svg st')
     = option_map (map (set_display None)) (svg st).
Proof.
  destruct (svg st) as [paths |] eqn:Hsvg.
  - rewrite (legendOnToggle_on_surface id visible st paths Hsvg).
    destruct (querySelectorAll ("#transfer-" ++ id) paths) as [selection | e];
      simpl.
    + repeat split. f_equal.
      exact (style_keeps_attributes selection "display"
               (display_value visible) paths).
    + now rewrite Hsvg.
  - rewrite (legendOnToggle_no_surface id visible st Hsvg). simpl.
    now rewrite Hsvg.
Qed.

(** ** When the methods fail *)

(** X5: for a sanitized identifier [legendOnToggle] throws exactly when
    the drawing surface [this.svg] is not set; the exception is a
    [TypeError] and the instance is unchanged. *)
Theorem legendOnToggle_throws_iff (id : string) (visible : bool) st :
  sanitized id = true ->
  (fst (legendOnToggle id visible st) <> Normal tt <-> svg st = None)
  /\ (svg st = None -> legendOnToggle id visible st = (Throw TypeError, st)).
Proof.
  intro Hid. split; [| apply legendOnToggle_no_surface].
  destruct (svg st) as [paths |] eqn:Hsvg.
  - rewrite (legendOnToggle_run id visible st paths Hid Hsvg). simpl.
    split; [intro H; now elim H | discriminate].
  - rewrite (legendOnToggle_no_surface id visible st Hsvg). simpl.
    split; [reflexivity | discriminate].
Qed.

(** X6: [plot] throws exactly when the data object is set and has no
    [transfers] mapping; in every other case it returns normally. *)
Theorem plot_throws_iff st :
  fst (plot st) <> Normal tt
  <-> exists r, data st = Some r /\ transfers r = None.
Proof.
  destruct (data st) as [[[entries |]] |] eqn:Hdata.
  - rewrite (plot_run st _ entries Hdata eq_refl). simpl.
    split; [intro H; now elim H |].
    intros (r & Hr & Hnone). inversion Hr. subst r. discriminate Hnone.
  - unfold plot, bind at 1. unfold gets. rewrite Hdata. simpl.
    split; [| discriminate]. intros _. eexists. split; reflexivity.
  - unfold plot, bind, gets. rewrite Hdata. simpl.
    split; [intro H; now elim H |].
    intros (r & Hr & _). discriminate Hr.
Qed.

(** X7: [initLegend] throws exactly when the data object is not set or
    has no [transfers] mapping; it then requests no legend row and
    leaves the instance unchanged.  So it fails wherever [plot] fails,
    and also where [plot] returns early. *)
Theorem initLegend_throws_iff st :
  (fst (initLegend st) <> Normal tt
   <-> data st = None \/ exists r, data st = Some r /\ transfers r = None)
  /\ (fst (initLegend st) <> Normal tt ->
      initLegend st = (Throw TypeError, st))
  /\ (fst (plot st) <> Normal tt -> fst (initLegend st) <> Normal tt).
Proof.
  assert (Hchar : fst (initLegend st) <> Normal tt
                  <-> data st = None
                      \/ exists r, data st = Some r /\ transfers r = None).
  { destruct (data st) as [[[entries |]] |] eqn:Hdata.
    - rewrite (initLegend_run st _ entries Hdata eq_refl). simpl.
      split; [intro H; now elim H |].
      intros [H | (r & Hr & Hnone)]; [discriminate H |].
      inversion Hr. subst r. discriminate Hnone.
    - unfold initLegend, bind, gets, lift. rewrite Hdata. simpl.
      split; [| discriminate]. intros _. right. eexists. split; reflexivity.
    - unfold initLegend, bind, gets, lift. rewrite Hdata. simpl.
      split; [| discriminate]. intros _. now left. }
  split; [exact Hchar |]. split.
  - intro Hfail. apply Hchar in Hfail.
    unfold initLegend, bind, gets, lift.
    destruct Hfail as [Hnone | (r & Hr & Hnone)].
    + now rewrite Hnone.
    + rewrite Hr. simpl. now rewrite Hnone.
  - intro Hplot. apply Hchar. right. now apply plot_throws_iff.
Qed.

(** ** The legend and the paths together *)

Lemma plotted_path_In (entries : list (string * list Point))
  (el : path_element Point) :
  In el (map draw_path (draws_from 0 entries)) ->
  exists worker points k,
    nth_error entries k = Some (worker, points)
    /\ el = new_path points (pathOptions worker k).
Proof.
  intro Hin. apply in_map_iff in Hin. destruct Hin as (d & <- & Hd).
  apply In_nth_error in Hd. destruct Hd as (k & Hk).
  apply draws_nth_error in Hk. destruct Hk as (worker & points & Hk & ->).
  now exists worker, points, k.
Qed.

Lemma toggled_plotted_display (id : string) (visible : bool)
  (worker : string) (points : list Point) (k : nat) :
  el_display (toggled id visible (new_path points (pathOptions worker k)))
  = if String.eqb (escapeWorkerId worker) id then display_value visible else None.
Proof.
  unfold toggled.
  change (el_id (new_path points (pathOptions worker k)))
    with ("transfer-" ++ escapeWorkerId worker)%string.
  rewrite transfer_id_eqb.
  now destruct (String.eqb (escapeWorkerId worker) id).
Qed.

Lemma toggled_plotted_entries (id : string) (visible : bool)
  (entries : list (string * list Point)) :
  map (fun el => (el_tooltip el, el_points el))
    (map (toggled id visible) (map draw_path (draws_from 0 entries)))
  = entries.
Proof.
  rewrite !map_map. rewrite <- (draws_tooltips entries 0) at 2.
  apply map_ext. intro d. unfold toggled.
  now destruct (String.eqb _ _).
Qed.

Lemma legend_item_sanitized (keys : list string) (item : LegendItem.t) :
  (forall worker, In worker keys -> sanitized (escapeWorkerId worker) = true) ->
  In item (legendItems keys) ->
  sanitized (LegendItem.id item) = true.
Proof.
  intros Hsan Hitem. apply legendItems_In in Hitem.
  destruct Hitem as (k & worker & Hk & ->). simpl.
  apply Hsan. eapply nth_error_In; exact Hk.
Qed.

(** X8: the checkbox of a legend item acts on the paths of [plot] by
    sanitized name, when the sanitized names are made of name characters.
    After [plot], running the [onToggle] callback of the
    legend row with the id of any legend item returns normally and keeps
    one path per worker with its points; a path gets the toggled display
    exactly when its worker sanitizes to the item's id, every other path
    stays without a display style; and the path of the item's own worker
    is among those toggled. *)
Theorem legend_toggle_acts_by_sanitized_name st (dataset : object (list Point))
  (item : LegendItem.t) (visible : bool) :
  data st = Some (Build_response (Some dataset)) ->
  (forall worker, In worker (map fst dataset) ->
     sanitized (escapeWorkerId worker) = true) ->
  In item (legendItems (map fst dataset)) ->
  exists st1 paths',
    plot st = (Normal tt, st1)
    /\ run_callback CallLegendOnToggle (LegendItem.id item) visible st1
       = (Normal tt, set_svg (Some paths') st1)
    /\ map (fun el => (el_tooltip el, el_points el)) paths' = dataset
    /\ (forall el', In el' paths' ->
          el_display el'
          = if String.eqb (escapeWorkerId (el_tooltip el')) (LegendItem.id item)
            then display_value visible else None)
    /\ (exists el',
          In el' paths'
          /\ el_tooltip el' = LegendItem.label item
          /\ el_display el' = display_value visible).
Proof.
  intros Hdata Hsan Hitem.
  assert (Hid := legend_item_sanitized _ _ Hsan Hitem).
  eexists. exists (map (toggled (LegendItem.id item) visible)
                     (map draw_path (draws_from 0 dataset))).
  split; [now apply plot_run with (r := Build_response (Some dataset)) |].
  split; [now apply legendOnToggle_run |].
  split; [apply toggled_plotted_entries |].
  assert (Hdisplay : forall el',
    In el' (map (toggled (LegendItem.id item) visible)
              (map draw_path (draws_from 0 dataset))) ->
    el_display el'
    = if String.eqb (escapeWorkerId (el_tooltip el')) (LegendItem.id item)
      then display_value visible else None).
  { intros el' Hin. apply in_map_iff in Hin. destruct Hin as (el & <- & Hel).
    apply plotted_path_In in Hel.
    destruct Hel as (worker & points & k & _ & ->).
    rewrite toggled_plotted_display.
    replace (el_tooltip (toggled (LegendItem.id item) visible
                           (new_path points (pathOptions worker k))))
      with worker; [reflexivity |].
    unfold toggled. now destruct (String.eqb _ _). }
  split; [exact Hdisplay |].
  apply legendItems_In in Hitem. destruct Hitem as (k & worker & Hk & ->).
  assert (Hin : In worker
                  (map fst
                     (map (fun el : path_element Point =>
                             (el_tooltip el, el_points el))
                        (map (toggled (escapeWorkerId worker) visible)
                           (map draw_path (draws_from 0 dataset)))))).
  { rewrite toggled_plotted_entries. eapply nth_error_In; exact Hk. }
  rewrite map_map in Hin. apply in_map_iff in Hin.
  destruct Hin as (el' & Htip & Hel'). simpl in Htip.
  exists el'. split; [exact Hel' |]. split; [exact Htip |].
  rewrite (Hdisplay el' Hel'). simpl. rewrite Htip.
  now rewrite String.eqb_refl.
Qed.

(** X9: when the sanitization gives names made of name characters and
    is injective on the worker names of the dataset, the checkbox of a legend item toggles the path of that
    worker and no other: after [plot] and the callback, a path has the
    toggled display exactly when its tooltip is the item's label, and
    all other paths are without a display style. *)
Theorem legend_toggle_acts_on_own_path st (dataset : object (list Point))
  (item : LegendItem.t) (visible : bool) :
  data st = Some (Build_response (Some dataset)) ->
  (forall worker, In worker (map fst dataset) ->
     sanitized (escapeWorkerId worker) = true) ->
  injective_on (map fst dataset) ->
  In item (legendItems (map fst dataset)) ->
  exists st1 paths',
    plot st = (Normal tt, st1)
    /\ run_callback CallLegendOnToggle (LegendItem.id item) visible st1
       = (Normal tt, set_svg (Some paths') st1)
    /\ map (fun el => (el_tooltip el, el_points el)) paths' = dataset
    /\ (forall el', In el' paths' ->
          el_display el'
          = if String.eqb (el_tooltip el') (LegendItem.label item)
            then display_value visible else None).
Proof.
  intros Hdata Hsan Hinj Hitem.
  assert (Hid := legend_item_sanitized _ _ Hsan Hitem).
  eexists. exists (map (toggled (LegendItem.id item) visible)
                     (map draw_path (draws_from 0 dataset))).
  split; [now apply plot_run with (r := Build_response (Some dataset)) |].
  split; [now apply legendOnToggle_run |].
  split; [apply toggled_plotted_entries |].
  intros el' Hin.
  assert (Hkey : In (el_tooltip el') (map fst dataset)).
  { rewrite <- (toggled_plotted_entries (LegendItem.id item) visible dataset).
    rewrite map_map. apply in_map_iff. now exists el'. }
  apply in_map_iff in Hin. destruct Hin as (el & <- & Hel).
  apply plotted_path_In in Hel.
  destruct Hel as (worker & points & k & _ & ->).
  rewrite toggled_plotted_display.
  assert (Htip : el_tooltip (toggled (LegendItem.id item) visible
                               (new_path points (pathOptions worker k)))
                 = worker).
  { unfold toggled. now destruct (String.eqb _ _). }
  rewrite Htip in *.
  apply legendItems_In in Hitem. destruct Hitem as (k' & w & Hk' & ->).
  simpl.
  destruct (String.eqb_spec (escapeWorkerId worker) (escapeWorkerId w))
    as [Heq | Hne];
    destruct (String.eqb_spec worker w) as [Heq' | Hne'];
    try reflexivity; exfalso.
  - apply Hne'. apply Hinj; try assumption.
    eapply nth_error_In; exact Hk'.
  - apply Hne. now rewrite Heq'.
Qed.

(** ** The order and the identifiers of the legend *)

Lemma sorted_Permutation_unique {X : Type} (R : X -> X -> Prop) :
  forall l1 l2,
    (forall a b, In a l1 -> In b l1 -> R a b -> R b a -> a = b) ->
    StronglySorted R l1 -> StronglySorted R l2 -> Permutation l1 l2 ->
    l1 = l2.
Proof.
  intro l1. induction l1 as [| x l1' IH]; intros l2 Hanti Hs1 Hs2 Hperm.
  - now apply Permutation_nil in Hperm.
  - destruct l2 as [| y l2'].
    + apply Permutation_sym, Permutation_nil in Hperm. discriminate.
    + apply StronglySorted_inv in Hs1. destruct Hs1 as [Hs1 Hx].
      apply StronglySorted_inv in Hs2. destruct Hs2 as [Hs2 Hy].
      assert (Hin2 : In y (x :: l1'))
        by (apply Permutation_in with (y :: l2');
            [now apply Permutation_sym | simpl; auto]).
      assert (Hxy : x = y).
      { assert (Hin1 : In x (y :: l2'))
          by (apply Permutation_in with (x :: l1'); simpl; auto).
        destruct Hin1 as [-> | Hin1]; [reflexivity |].
        destruct Hin2 as [-> | Hin2']; [reflexivity |].
        apply Hanti; simpl; auto.
        - now apply (proj1 (Forall_forall _ _) Hx).
        - now apply (proj1 (Forall_forall _ _) Hy). }
      subst y. f_equal. apply IH; try assumption.
      * intros a b Ha Hb. apply Hanti; simpl; auto.
      * now apply Permutation_cons_inv with x.
Qed.

Lemma legendItems_sorted (keys : list string) :
  (forall a b, (0 < localeCompare a b)%Z -> (localeCompare b a <= 0)%Z) ->
  (forall a b c, (localeCompare a b <= 0)%Z -> (localeCompare b c <= 0)%Z ->
                 (localeCompare a c <= 0)%Z) ->
  StronglySorted (not_after localeCompare)
    (map LegendItem.label (legendItems keys)).
Proof.
  intros Htotal Htrans. apply StronglySorted_map.
  apply (Array_sort_StronglySorted _ byLabel).
  - intros a b. apply Htotal.
  - intros a b c. apply Htrans.
Qed.

(** X10: the order of the legend does not depend on the order of the
    mapping when no two worker names of the dataset tie.  For a
    consistent comparator under which no two different worker names of
    the dataset compare as equal, a second dataset with the same worker
    names, in whatever property order, gives a legend row with the same
    sequence of labels. *)
Theorem legend_order_independent_of_key_order st1 st2
  (dataset1 dataset2 : object (list Point)) :
  (forall a b, (0 < localeCompare a b)%Z -> (localeCompare b a <= 0)%Z) ->
  (forall a b c, (localeCompare a b <= 0)%Z -> (localeCompare b c <= 0)%Z ->
                 (localeCompare a c <= 0)%Z) ->
  (forall a b, In a (map fst dataset1) -> In b (map fst dataset1) ->
               (localeCompare a b <= 0)%Z -> (localeCompare b a <= 0)%Z ->
               a = b) ->
  data st1 = Some (Build_response (Some dataset1)) ->
  data st2 = Some (Build_response (Some dataset2)) ->
  Permutation (map fst dataset1) (map fst dataset2) ->
  exists items1 items2,
    initLegend st1
    = (Normal tt,
       set_calls (calls st1 ++ [CreateLegendRow items1 legendOptions]) st1)
    /\ initLegend st2
       = (Normal tt,
          set_calls (calls st2 ++ [CreateLegendRow items2 legendOptions]) st2)
    /\ map LegendItem.label items1 = map LegendItem.label items2.
Proof.
  intros Htotal Htrans Hanti Hdata1 Hdata2 Hperm.
  exists (legendItems (map fst dataset1)), (legendItems (map fst dataset2)).
  split; [now apply initLegend_run with (r := Build_response (Some dataset1)) |].
  split; [now apply initLegend_run with (r := Build_response (Some dataset2)) |].
  apply (sorted_Permutation_unique (not_after localeCompare)).
  - intros a b Ha Hb. apply Hanti.
    + eapply Permutation_in; [apply legendItems_labels | exact Ha].
    + eapply Permutation_in; [apply legendItems_labels | exact Hb].
  - now apply legendItems_sorted.
  - now apply legendItems_sorted.
  - apply Permutation_trans with (map fst dataset1);
      [apply legendItems_labels |].
    apply Permutation_trans with (map fst dataset2); [exact Hperm |].
    apply Permutation_sym, legendItems_labels.
Qed.

(** X11: the legend has no repeated entry: the labels of the items are
    pairwise different, and so are their ids when the sanitization is
    injective on the worker names. *)
Theorem legend_items_distinct st (dataset : object (list Point)) :
  data st = Some (Build_response (Some dataset)) ->
  wf_object dataset ->
  injective_on (map fst dataset) ->
  exists items,
    initLegend st
    = (Normal tt,
       set_calls (calls st ++ [CreateLegendRow items legendOptions]) st)
    /\ NoDup (map LegendItem.label items)
    /\ NoDup (map LegendItem.id items).
Proof.
  intros Hdata Hwf Hinj.
  exists (legendItems (map fst dataset)).
  split; [now apply initLegend_run with (r := Build_response (Some dataset)) |].
  assert (Hlabels : NoDup (map LegendItem.label (legendItems (map fst dataset)))).
  { apply Permutation_NoDup with (map fst dataset); [| exact Hwf].
    apply Permutation_sym, legendItems_labels. }
  split; [exact Hlabels |].
  replace (map LegendItem.id (legendItems (map fst dataset)))
    with (map escapeWorkerId
            (map LegendItem.label (legendItems (map fst dataset)))).
  - apply NoDup_map_on; [| exact Hlabels].
    intros a b Ha Hb. apply Hinj.
    + eapply Permutation_in; [apply legendItems_labels | exact Ha].
    + eapply Permutation_in; [apply legendItems_labels | exact Hb].
  - rewrite map_map. apply map_ext_in. intros item Hin.
    apply legendItems_In in Hin. destruct Hin as (k & worker & _ & ->).
    reflexivity.
Qed.

Lemma missing_transfers_run st :
  data st = Some (Build_response None) ->
  plot st
  = (Throw TypeError, set_svg (Some []) (set_calls (calls st ++ [InitSVG]) st))
  /\ initLegend st = (Throw TypeError, st).
Proof.
  intro Hdata. split.
  - unfold plot, bind at 1. unfold gets. rewrite Hdata.
    destruct st as [d s b l c]. reflexivity.
  - unfold initLegend, bind, gets, lift. now rewrite Hdata.
Qed.

(** X12: building the legend and drawing never change the dataset or the
    scale types, whether they return or throw; [initLegend] also leaves
    the drawing surface alone and makes at most one call to the base
    class, and both methods only add to the calls made so far. *)
Theorem rendering_keeps_dataset_and_scales st :
  let sl := snd (initLegend st) in
  let sp := snd (plot st) in
  (data sl = data st /\ svg sl = svg st
   /\ bottomScaleType sl = bottomScaleType st
   /\ leftScaleType sl = leftScaleType st
   /\ exists new, calls sl = calls st ++ new /\ List.length new <= 1)
  /\ (data sp = data st
      /\ bottomScaleType sp = bottomScaleType st
      /\ leftScaleType sp = leftScaleType st
      /\ exists new, calls sp = calls st ++ new).
Proof.
  destruct (data st) as [[[entries |]] |] eqn:Hdata.
  - rewrite (initLegend_run st _ entries Hdata eq_refl).
    rewrite (plot_run st _ entries Hdata eq_refl). simpl.
    rewrite Hdata. repeat split.
    + eexists. split; [reflexivity | simpl; lia].
    + eexists. reflexivity.
  - destruct (missing_transfers_run st Hdata) as [Hp Hl].
    rewrite Hp, Hl. simpl. rewrite Hdata. repeat split.
    + exists []. split; [now rewrite app_nil_r | simpl; lia].
    + eexists. reflexivity.
  - assert (Hl : initLegend st = (Throw TypeError, st))
      by (unfold initLegend, bind, gets, lift; now rewrite Hdata).
    assert (Hp : plot st = (Normal tt, st))
      by (unfold plot, bind, gets; now rewrite Hdata).
    rewrite Hl, Hp. simpl. rewrite Hdata. repeat split.
    + exists []. split; [now rewrite app_nil_r | simpl; lia].
    + exists []. now rewrite app_nil_r.
Qed.

End SelectorLaw.

End WorkerOutgoingTransfersModule.

(* ===================================================================== *)
(** * The properties on the sample instances *)
(* ===================================================================== *)

Import Sample.

(** ** The code-unit comparator is consistent *)

Lemma string_compare_not_Gt_trans (a : string) :
  forall b c,
    String.compare a b <> Gt -> String.compare b c <> Gt ->
    String.compare a c <> Gt.
Proof.
  induction a as [| x a' IH]; intros [| y b'] [| z c']; simpl;
    try congruence.
  unfold Ascii.compare.
  destruct (N.compare_spec (N_of_ascii x) (N_of_ascii y)) as [Hxy | Hxy | Hxy];
    destruct (N.compare_spec (N_of_ascii y) (N_of_ascii z)) as [Hyz | Hyz | Hyz];
    destruct (N.compare_spec (N_of_ascii x) (N_of_ascii z)) as [Hxz | Hxz | Hxz];
    try congruence; try (exfalso; lia).
  apply IH.
Qed.

Lemma codeUnitCompare_le (a b : string) :
  (codeUnitCompare a b <= 0)%Z <-> String.compare a b <> Gt.
Proof.
  unfold codeUnitCompare.
  destruct (String.compare a b); split; intro H; try lia; congruence.
Qed.

Lemma codeUnitCompare_total (a b : string) :
  (0 < codeUnitCompare a b)%Z -> (codeUnitCompare b a <= 0)%Z.
Proof.
  unfold codeUnitCompare. rewrite (String.compare_antisym a b).
  destruct (String.compare b a); simpl; lia.
Qed.

Lemma codeUnitCompare_trans (a b c : string) :
  (codeUnitCompare a b <= 0)%Z -> (codeUnitCompare b c <= 0)%Z ->
  (codeUnitCompare a c <= 0)%Z.
Proof.
  rewrite !codeUnitCompare_le. apply string_compare_not_Gt_trans.
Qed.

(** ** The sample datasets are well formed *)

Lemma two_workers_wf : wf_object two_workers.
Proof.
  unfold wf_object. simpl.
  repeat constructor; simpl; intuition discriminate.
Qed.

Lemma two_addresses_wf : wf_object two_addresses.
Proof.
  unfold wf_object. simpl.
  repeat constructor; simpl; intuition discriminate.
Qed.

Lemma two_addresses_injective :
  injective_on underscoreEscape (map fst two_addresses).
Proof.
  intros a b Ha Hb. simpl in Ha, Hb.
  destruct Ha as [<- | [<- | []]]; destruct Hb as [<- | [<- | []]];
    vm_compute; intro H; try reflexivity; discriminate H.
Qed.

Lemma two_colliding_wf : wf_object two_colliding.
Proof.
  unfold wf_object. simpl.
  repeat constructor; simpl; intuition discriminate.
Qed.

(** ** The sample engine and the sample sanitizer *)

Lemma idSelectorEngine_law : id_selector_law point idSelectorEngine.
Proof.
  intros name paths Hname. simpl. now rewrite Hname.
Qed.

Lemma is_id_char_name_char (c : ascii) : is_name_char c = is_id_char c.
Proof. destruct c as [[] [] [] [] [] [] [] []]; reflexivity. Qed.

Lemma underscoreEscape_sanitized (s : string) :
  sanitized (underscoreEscape s) = true.
Proof.
  induction s as [| c rest IH]; simpl; [reflexivity |].
  rewrite IH, andb_true_r.
  destruct (is_id_char c) eqn:Hc.
  - now rewrite is_id_char_name_char.
  - reflexivity.
Qed.

(** ** Evaluations *)

Example legend_of_two_workers :
  map LegendItem.label (legendItems underscoreEscape paletteColor codeUnitCompare
                          (map fst two_workers))
  = ["w1"; "w2"]%string.
Proof. reflexivity. Qed.

Example plot_of_two_addresses :
  plot point underscoreEscape paletteColor loaded_addresses
  = (Normal tt, plotted_addresses).
Proof. reflexivity. Qed.

Example constructor_of_freshModule :
  constructor point freshModule "outgoing" "Outgoing Transfers" "/api/x"
  = (Normal tt,
     Build_module_state None None "linear" "linear"
       [SetBottomScaleType "linear"; SetLeftScaleType "linear"]).
Proof. reflexivity. Qed.

Example callback_is_legendOnToggle :
  run_callback point idSelectorEngine CallLegendOnToggle "10_0_0_1_9123" false plotted_addresses
  = legendOnToggle point idSelectorEngine "10_0_0_1_9123" false plotted_addresses.
Proof. reflexivity. Qed.

Example toggle_with_address_as_id :
  legendOnToggle point idSelectorEngine "10.0.0.1:9123" false plotted_addresses
  = (Throw SyntaxError, plotted_addresses).
Proof. reflexivity. Qed.

Example toggle_before_any_plot :
  legendOnToggle point idSelectorEngine "w1" false loaded = (Throw TypeError, loaded).
Proof. reflexivity. Qed.

(** ** The claims at the sample instances *)

Lemma initLegend_without_dataset_witness :
  data no_data = None
  /\ initLegend point underscoreEscape paletteColor codeUnitCompare no_data
     = (Throw TypeError, no_data).
Proof.
  split; [reflexivity |].
  apply (initLegend_without_dataset point underscoreEscape paletteColor
           codeUnitCompare no_data).
  reflexivity.
Defined.

Lemma plot_without_dataset_witness :
  data no_data = None
  /\ plot point underscoreEscape paletteColor no_data = (Normal tt, no_data).
Proof.
  split; [reflexivity |].
  apply (plot_without_dataset point underscoreEscape paletteColor no_data).
  reflexivity.
Defined.

Lemma initLegend_items_sorted_witness :
  exists items,
    initLegend point underscoreEscape paletteColor codeUnitCompare loaded
    = (Normal tt,
       set_calls point
         (calls loaded ++ [CreateLegendRow items legendOptions]) loaded)
    /\ Permutation (map LegendItem.label items) (map fst two_workers)
    /\ List.length items = List.length two_workers
    /\ Forall
         (fun item =>
            LegendItem.id item = underscoreEscape (LegendItem.label item))
         items
    /\ StronglySorted (not_after codeUnitCompare) (map LegendItem.label items).
Proof.
  apply (initLegend_items_sorted point underscoreEscape paletteColor
           codeUnitCompare loaded two_workers).
  - exact codeUnitCompare_total.
  - exact codeUnitCompare_trans.
  - reflexivity.
Defined.

Lemma plot_one_path_per_worker_witness :
  exists drawn : list (draw point),
    plot point underscoreEscape paletteColor loaded_addresses
    = (Normal tt,
       set_svg point (Some (map (draw_path point) drawn))
         (set_calls point
            (calls loaded_addresses ++ InitSVG :: map (draw_call point) drawn)
            loaded_addresses))
    /\ map (fun d : draw point => (PathOptions.tooltipInnerHTML (snd d), fst d))
         drawn
       = two_addresses
    /\ (forall idx d, nth_error drawn idx = Some d ->
          PathOptions.stroke (snd d)
          = paletteColor (PathOptions.tooltipInnerHTML (snd d)) idx
          /\ PathOptions.className (snd d) = "transfer-line"%string
          /\ PathOptions.id (snd d)
             = ("transfer-"
                ++ underscoreEscape (PathOptions.tooltipInnerHTML (snd d)))%string)
    /\ (wf_object two_addresses ->
        (NoDup (map (fun d : draw point => PathOptions.id (snd d)) drawn)
         <-> injective_on underscoreEscape (map fst two_addresses))).
Proof.
  apply (plot_one_path_per_worker point underscoreEscape paletteColor
           loaded_addresses two_addresses).
  reflexivity.
Defined.

Lemma plot_one_path_per_worker_counterexample :
  wf_object two_colliding
  /\ exists drawn : list (draw point),
       plot point underscoreEscape paletteColor loaded_colliding
       = (Normal tt,
          set_svg point (Some (map (draw_path point) drawn))
            (set_calls point
               (calls loaded_colliding ++ InitSVG :: map (draw_call point) drawn)
               loaded_colliding))
       /\ map (fun d : draw point => PathOptions.tooltipInnerHTML (snd d)) drawn
          = ["a.b"; "a:b"]%string
       /\ map (fun d : draw point => PathOptions.id (snd d)) drawn
          = ["transfer-a_b"; "transfer-a_b"]%string
       /\ ~ NoDup (map (fun d : draw point => PathOptions.id (snd d)) drawn).
Proof.
  split; [exact two_colliding_wf |].
  exists (draws_from point underscoreEscape paletteColor 0 two_colliding).
  split; [reflexivity |]. split; [reflexivity |]. split; [reflexivity |].
  intro Hnd. simpl in Hnd. apply NoDup_cons_iff in Hnd.
  destruct Hnd as [Hin _]. apply Hin. left. reflexivity.
Qed.

Lemma legendOnToggle_unknown_id_witness :
  legendOnToggle point idSelectorEngine "10_0_0_3_9123" false plotted_addresses
  = (Normal tt, plotted_addresses).
Proof.
  eapply (legendOnToggle_unknown_id point idSelectorEngine idSelectorEngine_law
            plotted_addresses).
  - reflexivity.
  - reflexivity.
  - intros el Hin. simpl in Hin.
    destruct Hin as [<- | [<- | []]]; simpl; discriminate.
Defined.

Lemma legendOnToggle_unknown_id_counterexample :
  sanitized "w1" = true
  /\ svg loaded = None
  /\ (forall paths el,
        svg loaded = Some paths -> In el paths ->
        el_id el <> ("transfer-" ++ "w1")%string)
  /\ legendOnToggle point idSelectorEngine "w1" false loaded
     = (Throw TypeError, loaded)
  /\ legendOnToggle point idSelectorEngine "w1" true loaded
     = (Throw TypeError, loaded).
Proof.
  split; [reflexivity |]. split; [reflexivity |].
  split; [intros paths el Hsvg; discriminate Hsvg |].
  split; reflexivity.
Qed.


Lemma empty_dataset_draws_nothing_witness :
  plot point underscoreEscape paletteColor empty_dataset
  = (Normal tt,
     set_svg point (Some [])
       (set_calls point (calls empty_dataset ++ [InitSVG]) empty_dataset))
  /\ initLegend point underscoreEscape paletteColor codeUnitCompare empty_dataset
     = (Normal tt,
        set_calls point
          (calls empty_dataset ++ [CreateLegendRow [] legendOptions])
          empty_dataset).
Proof.
  apply (empty_dataset_draws_nothing point underscoreEscape paletteColor
           codeUnitCompare empty_dataset).
  reflexivity.
Defined.

Lemma legend_color_is_path_stroke_witness :
  exists (items : list LegendItem.t) (drawn : list (draw point)),
    initLegend point underscoreEscape paletteColor codeUnitCompare loaded
    = (Normal tt,
       set_calls point
         (calls loaded ++ [CreateLegendRow items legendOptions]) loaded)
    /\ plot point underscoreEscape paletteColor loaded
       = (Normal tt,
          set_svg point (Some (map (draw_path point) drawn))
            (set_calls point
               (calls loaded ++ InitSVG :: map (draw_call point) drawn) loaded))
    /\ (forall worker, In worker (map fst two_workers) ->
          exists item d,
            In item items /\ In d drawn
            /\ LegendItem.label item = worker
            /\ PathOptions.tooltipInnerHTML (snd d) = worker)
    /\ (forall item d,
          In item items -> In d drawn ->
          LegendItem.label item = PathOptions.tooltipInnerHTML (snd d) ->
          LegendItem.color item = PathOptions.stroke (snd d)).
Proof.
  apply (legend_color_is_path_stroke point underscoreEscape paletteColor
           codeUnitCompare loaded two_workers).
  - reflexivity.
  - exact two_workers_wf.
Defined.

Lemma transfers_missing_throws_witness :
  plot point underscoreEscape paletteColor no_transfers
  = (Throw TypeError,
     set_svg point (Some [])
       (set_calls point (calls no_transfers ++ [InitSVG]) no_transfers))
  /\ initLegend point underscoreEscape paletteColor codeUnitCompare no_transfers
     = (Throw TypeError, no_transfers).
Proof.
  apply (transfers_missing_throws point underscoreEscape paletteColor
           codeUnitCompare no_transfers).
  reflexivity.
Defined.

(** ** The further properties at the sample instances *)

Lemma codeUnitCompare_antisym (a b : string) :
  (codeUnitCompare a b <= 0)%Z -> (codeUnitCompare b a <= 0)%Z -> a = b.
Proof.
  unfold codeUnitCompare. rewrite (String.compare_antisym b a).
  destruct (String.compare a b) eqn:Hab; simpl; try lia.
  intros _ _. now apply String.compare_eq_iff.
Qed.

Lemma address_item_in_legend :
  In address_item
    (legendItems underscoreEscape paletteColor codeUnitCompare
       (map fst two_addresses)).
Proof. left. reflexivity. Qed.

Example colors_follow_key_order :
  map LegendItem.color
    (legendItems underscoreEscape paletteColor codeUnitCompare
       (map fst two_workers))
  = ["#ff7f0e"; "#1f77b4"]%string
  /\ map LegendItem.color
       (legendItems underscoreEscape paletteColor codeUnitCompare
          (map fst two_workers_swapped))
     = ["#1f77b4"; "#ff7f0e"]%string.
Proof. split; reflexivity. Qed.

Lemma legendOnToggle_commute_witness :
  bind (legendOnToggle point idSelectorEngine "10_0_0_1_9123" false)
    (fun _ => legendOnToggle point idSelectorEngine "10_0_0_2_9123" true) plotted_addresses
  = bind (legendOnToggle point idSelectorEngine "10_0_0_2_9123" true)
      (fun _ => legendOnToggle point idSelectorEngine "10_0_0_1_9123" false) plotted_addresses.
Proof.
  apply (legendOnToggle_commute point idSelectorEngine idSelectorEngine_law
           "10_0_0_1_9123" "10_0_0_2_9123" false true plotted_addresses).
  - reflexivity.
  - reflexivity.
  - discriminate.
Defined.

Lemma legendOnToggle_hide_then_show_witness :
  bind (legendOnToggle point idSelectorEngine "10_0_0_1_9123" false)
    (fun _ => legendOnToggle point idSelectorEngine "10_0_0_1_9123" true) plotted_addresses
  = (Normal tt, plotted_addresses).
Proof.
  eapply (legendOnToggle_hide_then_show point idSelectorEngine
            idSelectorEngine_law plotted_addresses).
  - reflexivity.
  - reflexivity.
  - intros el Hin _. simpl in Hin.
    destruct Hin as [<- | [<- | []]]; reflexivity.
Defined.

Lemma legend_toggle_acts_by_sanitized_name_witness :
  exists st1 paths',
    plot point underscoreEscape paletteColor loaded_addresses = (Normal tt, st1)
    /\ run_callback point idSelectorEngine CallLegendOnToggle (LegendItem.id address_item) false st1
       = (Normal tt, set_svg point (Some paths') st1)
    /\ map (fun el => (el_tooltip el, el_points el)) paths' = two_addresses
    /\ (forall el', In el' paths' ->
          el_display el'
          = if String.eqb (underscoreEscape (el_tooltip el'))
                 (LegendItem.id address_item)
            then display_value false else None)
    /\ (exists el',
          In el' paths'
          /\ el_tooltip el' = LegendItem.label address_item
          /\ el_display el' = display_value false).
Proof.
  apply (legend_toggle_acts_by_sanitized_name point underscoreEscape
           paletteColor codeUnitCompare idSelectorEngine idSelectorEngine_law
           loaded_addresses two_addresses address_item false).
  - reflexivity.
  - intros worker _. apply underscoreEscape_sanitized.
  - exact address_item_in_legend.
Defined.

Lemma legend_toggle_acts_on_own_path_witness :
  exists st1 paths',
    plot point underscoreEscape paletteColor loaded_addresses = (Normal tt, st1)
    /\ run_callback point idSelectorEngine CallLegendOnToggle (LegendItem.id address_item) false st1
       = (Normal tt, set_svg point (Some paths') st1)
    /\ map (fun el => (el_tooltip el, el_points el)) paths' = two_addresses
    /\ (forall el', In el' paths' ->
          el_display el'
          = if String.eqb (el_tooltip el') (LegendItem.label address_item)
            then display_value false else None).
Proof.
  apply (legend_toggle_acts_on_own_path point underscoreEscape paletteColor
           codeUnitCompare idSelectorEngine idSelectorEngine_law
           loaded_addresses two_addresses address_item false).
  - reflexivity.
  - intros worker _. apply underscoreEscape_sanitized.
  - exact two_addresses_injective.
  - exact address_item_in_legend.
Defined.

Lemma legend_order_independent_of_key_order_witness :
  exists items1 items2,
    initLegend point underscoreEscape paletteColor codeUnitCompare loaded
    = (Normal tt,
       set_calls point
         (calls loaded ++ [CreateLegendRow items1 legendOptions]) loaded)
    /\ initLegend point underscoreEscape paletteColor codeUnitCompare
         loaded_swapped
       = (Normal tt,
          set_calls point
            (calls loaded_swapped ++ [CreateLegendRow items2 legendOptions])
            loaded_swapped)
    /\ map LegendItem.label items1 = map LegendItem.label items2.
Proof.
  apply (legend_order_independent_of_key_order point underscoreEscape
           paletteColor codeUnitCompare loaded loaded_swapped
           two_workers two_workers_swapped).
  - exact codeUnitCompare_total.
  - exact codeUnitCompare_trans.
  - intros a b _ _. apply codeUnitCompare_antisym.
  - reflexivity.
  - reflexivity.
  - apply perm_swap.
Defined.

Lemma legend_items_distinct_witness :
  exists items,
    initLegend point underscoreEscape paletteColor codeUnitCompare
      loaded_addresses
    = (Normal tt,
       set_calls point
         (calls loaded_addresses ++ [CreateLegendRow items legendOptions])
         loaded_addresses)
    /\ NoDup (map LegendItem.label items)
    /\ NoDup (map LegendItem.id items).
Proof.
  apply (legend_items_distinct point underscoreEscape paletteColor
           codeUnitCompare loaded_addresses two_addresses).
  - reflexivity.
  - exact two_addresses_wf.
  - exact two_addresses_injective.
Defined.

Lemma legendOnToggle_last_wins_witness :
  bind (legendOnToggle point idSelectorEngine "10_0_0_1_9123" true)
    (fun _ => legendOnToggle point idSelectorEngine "10_0_0_1_9123" false)
    plotted_addresses
  = legendOnToggle point idSelectorEngine "10_0_0_1_9123" false plotted_addresses.
Proof.
  apply (legendOnToggle_last_wins point idSelectorEngine idSelectorEngine_law
           "10_0_0_1_9123" true false plotted_addresses).
  reflexivity.
Defined.

Lemma legendOnToggle_throws_iff_witness :
  (fst (legendOnToggle point idSelectorEngine "w1" false loaded) <> Normal tt
   <-> svg loaded = None)
  /\ (svg loaded = None ->
      legendOnToggle point idSelectorEngine "w1" false loaded
      = (Throw TypeError, loaded)).
Proof.
  apply (legendOnToggle_throws_iff point idSelectorEngine idSelectorEngine_law
           "w1" false loaded).
  reflexivity.
Defined.
